(** * Uncontested bridge bidding (open_spiel): a shallow embedding

    Source: [open_spiel/games/bridge_uncontested_bidding.h].

    The header defines the game constants, the class [Deal] with its partial
    Fisher-Yates [Shuffle], the constructors of [UncontestedBiddingState] and
    the inline members of [UncontestedBiddingGame].  Integers of the program
    ([int], [Action]) are embedded as [Z]; the 52-entry card array is a
    [list Z]; an access outside the array, or an [int] overflow in the loop
    bound of [Shuffle] (undefined behaviour in C++), is [None]. *)

From Stdlib Require Import ZArith Lia.
From stdpp Require Import base option list list_numbers.
From Equations Require Import Equations.

Local Open Scope Z_scope.

(** ** Constants of the header *)

Definition kNumSuits : Z := 4.
Definition kNumDenominations : Z := 1 + kNumSuits.
Definition kMaxBid : Z := 7.
Definition kNumBids : Z := kMaxBid * kNumDenominations.
Definition kNumActions : Z := kNumBids + 1.
Definition kNumCardsPerSuit : Z := 13.
Definition kNumCards : Z := kNumSuits * kNumCardsPerSuit.
Definition kNumPlayers : Z := 2.
Definition kNumHands : Z := 4.
Definition kNumCardsPerHand : Z := 13.
Definition kMinScore : Z := -650.
Definition kMaxScore : Z := 1520.
Definition kStateSize : Z := kNumCards + kNumPlayers * kNumActions + kNumPlayers.

(** The range of the C++ type [int] (32 bits, two's complement), and the
    value an [int] holds after an arithmetic result is stored in it. *)
Definition INT_MIN : Z := - 2 ^ 31.
Definition INT_MAX : Z := 2 ^ 31 - 1.
Definition wrap_int (z : Z) : Z := (z + 2 ^ 31) mod 2 ^ 32 - 2 ^ 31.

(** ** The random source: [std::mt19937]

    [std::mt19937] is the standard's
    [mersenne_twister_engine<uint_fast32_t, 32, 624, 397, 31, 0x9908b0df, 11,
    0xffffffff, 7, 0x9d2c5680, 15, 0xefc60000, 18, 1812433253>].  Its state is
    the array of 624 words and the position of the next word to deliver. *)
Module mt19937.

Definition w : Z := 32.
Definition n : nat := 624.
Definition m : nat := 397.
Definition r : Z := 31.
Definition a : Z := 0x9908b0df.
Definition u : Z := 11.
Definition d : Z := 0xffffffff.
Definition s : Z := 7.
Definition b : Z := 0x9d2c5680.
Definition t : Z := 15.
Definition c : Z := 0xefc60000.
Definition l : Z := 18.
Definition f : Z := 1812433253.

Definition upper_mask : Z := 0x80000000.
Definition lower_mask : Z := 0x7fffffff.

(** A value reduced to the [w] bits of a word. *)
Definition word (z : Z) : Z := z mod 2 ^ w.

Record state := { x : list Z; p : nat }.

(** [seed_seq i prev k]: the words x[i], x[i+1], ... (k of them) of the
    seeding recurrence, [prev] being x[i-1]. *)
Fixpoint seed_seq (i : Z) (prev : Z) (k : nat) : list Z :=
  match k with
  | O => []
  | S k' =>
      let xi := word (f * Z.lxor prev (Z.shiftr prev (w - 2)) + i) in
      xi :: seed_seq (i + 1) xi k'
  end.

(** The constructor [mt19937(value)]. *)
Definition seed (value : Z) : state :=
  let x0 := word value in
  {| x := x0 :: seed_seq 1 x0 (n - 1); p := n |}.

(** One step of the in-place reload of the word array. *)
Definition twist_at (xs : list Z) (k : nat) : list Z :=
  let y := Z.lor (Z.land (xs !!! k) upper_mask)
                 (Z.land (xs !!! ((k + 1) mod n)%nat) lower_mask) in
  <[k := Z.lxor (Z.lxor (xs !!! ((k + m) mod n)%nat) (Z.shiftr y 1))
                (if Z.testbit y 0 then a else 0)]> xs.

Definition gen_rand (xs : list Z) : list Z := foldl twist_at xs (seq 0 n).

Definition temper (z : Z) : Z :=
  let z := Z.lxor z (Z.land (Z.shiftr z u) d) in
  let z := Z.lxor z (Z.land (Z.shiftl z s) b) in
  let z := Z.lxor z (Z.land (Z.shiftl z t) c) in
  Z.lxor z (Z.shiftr z l).

(** [operator()]: the value delivered and the state after the call. *)
Definition next (g : state) : Z * state :=
  let g1 := if decide (n ≤ p g)%nat
            then {| x := gen_rand (x g); p := 0 |} else g in
  (word (temper (x g1 !!! p g1)), {| x := x g1; p := S (p g1) |}).

End mt19937.

(** ** class Deal *)

Record Deal := { cards_ : list Z }.

(** [Deal()]: [std::iota] over the array, starting at 0. *)
Definition Deal_default : Deal := {| cards_ := seqZ 0 kNumCards |}.

(** [Deal(const std::array<int, kNumCards>& cards)]. *)
Definition Deal_of_array (cards : list Z) : Deal := {| cards_ := cards |}.

(** [cards_[i]]; [None] outside the array. *)
Definition array_get (cards : list Z) (i : Z) : option Z :=
  if decide (0 ≤ i < kNumCards) then cards !! Z.to_nat i else None.

Definition Card (dl : Deal) (i : Z) : option Z := array_get (cards_ dl) i.
Definition Suit (dl : Deal) (i : Z) : option Z :=
  (λ c, Z.rem c kNumSuits) <$> array_get (cards_ dl) i.
Definition Rank (dl : Deal) (i : Z) : option Z :=
  (λ c, Z.quot c kNumSuits) <$> array_get (cards_ dl) i.

(** [std::swap(cards_[i], cards_[j])]. *)
Definition array_swap (cards : list Z) (i j : Z) : option (list Z) :=
  ci ← array_get cards i;
  cj ← array_get cards j;
  Some (<[Z.to_nat j := ci]> (<[Z.to_nat i := cj]> cards)).

(** The loop of [Shuffle], from the index [i] on.  The loop test computes
    [end - 1] in [int]: for [end = INT_MIN] it overflows, which is undefined.
    ([end - i] can only overflow for a negative [i], where the array access
    is undefined already.)  The generator is kept folded while the recursion
    equations are derived. *)
#[local] Opaque mt19937.next array_swap.

Equations? Shuffle_loop (rng : mt19937.state) (end_ i : Z) (cards : list Z)
  : option (list Z * mt19937.state) by wf (Z.to_nat (end_ - 1 - i)) lt :=
  Shuffle_loop rng end_ i cards with decide (INT_MIN ≤ end_ - 1) => {
    | right _ => None
    | left _ with decide (i < end_ - 1) => {
        | left _ =>
            let draw := mt19937.next rng in
            let j := i + draw.1 mod (end_ - i) in
            match array_swap cards i j with
            | Some cards' => Shuffle_loop draw.2 end_ (i + 1) cards'
            | None => None
            end
        | right _ => Some (cards, rng) } }.
Proof. lia. Qed.

#[local] Transparent mt19937.next array_swap.

(** [void Shuffle(std::mt19937* rng, int begin = 0, int end = kNumCards)]:
    the deal and the generator after the call. *)
Definition Shuffle (rng : mt19937.state) (begin end_ : Z) (dl : Deal)
  : option (Deal * mt19937.state) :=
  res ← Shuffle_loop rng end_ begin (cards_ dl);
  Some ({| cards_ := res.1 |}, res.2).

(** A sequence of [Shuffle] calls on one deal with one generator, each with
    its own [(begin, end)] range. *)
Fixpoint Shuffles (rng : mt19937.state) (ranges : list (Z * Z)) (dl : Deal)
  : option (Deal * mt19937.state) :=
  match ranges with
  | [] => Some (dl, rng)
  | (begin, end_) :: rest =>
      match Shuffle rng begin end_ dl with
      | Some (dl', rng') => Shuffles rng' rest dl'
      | None => None
      end
  end.

(** The 52-entry array is a bijection on [0,52): every position holds a card
    of [0,52), and every card of [0,52) is held by exactly one position. *)
Definition is_bijection (dl : Deal) : Prop :=
  length (cards_ dl) = Z.to_nat kNumCards ∧
  (∀ i, 0 ≤ i < kNumCards → ∃ c, Card dl i = Some c ∧ 0 ≤ c < kNumCards) ∧
  (∀ c, 0 ≤ c < kNumCards →
        ∃ i, Card dl i = Some c ∧ ∀ i', Card dl i' = Some c → i' = i).

(** ** Actions, bids and contracts *)

Definition Action : Type := Z.

(** Modelled from the spec: the bid encoding lives in the implementation file,
    which is not among the sources.  "Bid: identified by an integer action id
    in [0, kNumBids), decomposable into level (1..7) and denomination (5
    values: four suits + no-trump), with a strict total order by (level,
    denomination) [...] Action id kNumBids (the last slot) denotes Pass." *)
Definition kPass : Action := kNumBids.

Definition is_bid (a : Action) : Prop := 0 ≤ a < kNumBids.

#[export] Instance is_bid_dec a : Decision (is_bid a).
Proof. unfold is_bid. apply _. Defined.

Definition BidLevel (a : Action) : Z := 1 + a `div` kNumDenominations.
Definition BidDenomination (a : Action) : Z := a `mod` kNumDenominations.
Definition MakeBid (level denomination : Z) : Action :=
  (level - 1) * kNumDenominations + denomination.

(** The order by (level, denomination). *)
Definition bid_lt (a b : Action) : Prop :=
  BidLevel a < BidLevel b ∨
  (BidLevel a = BidLevel b ∧ BidDenomination a < BidDenomination b).

#[export] Instance bid_lt_dec a b : Decision (bid_lt a b).
Proof. unfold bid_lt. apply _. Defined.

(** Modelled from the spec: [Contract] is declared in bridge_scoring.h, which
    is not among the sources.  "Reference contracts: an externally supplied,
    fixed list of (level, denomination, declarer) tuples". *)
Record Contract := { level : Z; trumps : Z; declarer : Z }.

#[export] Instance Contract_eq_dec : EqDecision Contract.
Proof. solve_decision. Defined.

(** ** class UncontestedBiddingState

    [score_] is [None] until [ScoreDeal] writes it (the constructors leave it
    uninitialised); the scores are integers held in [double]s, embedded as
    [Z].  [score_deal_runs] is a history variable, not a member of the class:
    it counts the executions of [ScoreDeal] on the object. *)
Record UncontestedBiddingState := {
  reference_contracts_ : list Contract;
  actions_ : list Action;
  deal_filter_ : option (Deal → bool);
  rng_ : mt19937.state;
  deal_ : Deal;
  dealt_ : bool;
  score_ : option Z;
  reference_scores_ : list Z;
  score_deal_runs : nat }.

Definition bids_of (acts : list Action) : list Action := filter is_bid acts.

Definition highest_bid (acts : list Action) : option Action :=
  match bids_of acts with
  | [] => None
  | b :: bs => Some (foldl Z.max b bs)
  end.

(** Modelled from the spec (implementation file absent): "player 0 acts on
    even counts, player 1 on odd"; "declarer is the player among the bidding
    partnership who first named the winning denomination". *)
Definition first_namer (denomination : Z) (acts : list Action) : option Z :=
  (λ hit, Z.of_nat hit.1 `mod` kNumPlayers) <$>
    list_find (λ a, is_bid a ∧ BidDenomination a = denomination) acts.

(** Modelled from the spec (implementation file absent): "Contract: derived,
    not stored independently - {level, denomination, declaring-player}
    computed from the highest bid in the auction record [...] If no bid was
    ever made, there is no contract". *)
Definition AchievedContract (acts : list Action) : option Contract :=
  b ← highest_bid acts;
  who ← first_namer (BidDenomination b) acts;
  Some {| level := BidLevel b; trumps := BidDenomination b; declarer := who |}.

Definition last_two_are_pass (acts : list Action) : bool :=
  match reverse acts with
  | a :: b :: _ => bool_decide (a = kPass ∧ b = kPass)
  | _ => false
  end.

Fixpoint three_consecutive_passes (acts : list Action) : bool :=
  match acts with
  | a :: tl =>
      match tl with
      | b :: c :: _ =>
          bool_decide (a = kPass ∧ b = kPass ∧ c = kPass)
          || three_consecutive_passes tl
      | _ => false
      end
  | [] => false
  end.

(** Modelled from the spec ([IsTerminal] is defined in the absent
    implementation file).  The auction is over as soon as one of the spec's
    conditions holds: "Terminal condition: reached when (a) the last two
    actions are both Pass and at least one bid preceded them, or (b) three
    consecutive passes occur with no bid ever made (fully passed out), or (c)
    the action-count reaches the maximum possible (kNumActions)"; and "an
    auction with actions [Pass, Pass] (no prior bid) [...] is terminal with a
    passed out score", the two players "passing out entirely before any
    bid". *)
Definition TerminalCondition (acts : list Action) : bool :=
  (last_two_are_pass acts
   && bool_decide (bids_of (take (length acts - 2) acts) ≠ []))
  || (three_consecutive_passes acts && bool_decide (bids_of acts = []))
  || bool_decide (acts = [kPass; kPass])
  || bool_decide (kNumActions ≤ Z.of_nat (length acts)).

(** Modelled from the spec: what makes a sequence of actions an auction:
    "Monotonic bidding: for all auctions, every non-Pass action strictly
    exceeds (in level,denomination order) every earlier non-Pass action". *)
Definition legal_auction (acts : list Action) : Prop :=
  ∀ i j b a,
    acts !! i = Some b → acts !! j = Some a → (i < j)%nat →
    is_bid b → is_bid a → bid_lt b a.

(** Modelled from the spec: the machine is "NotDealt -> Dealing -> Bidding ->
    Terminal", so an undealt state is not terminal whatever its (forced)
    auction record is. *)
Definition IsTerminal (st : UncontestedBiddingState) : bool :=
  dealt_ st && TerminalCondition (actions_ st).

(** The reference contracts are, in the words of the header, "the possible
    contracts": the contract reached is one of them. *)
Definition reached_contract_is_reference (st : UncontestedBiddingState)
  : Prop :=
  ∃ c, AchievedContract (actions_ st) = Some c ∧ c ∈ reference_contracts_ st.

(** Modelled from the spec: "if no contract, score is a fixed passed out value
    (commonly zero)". *)
Definition kPassedOutScore : Z := 0.

Definition max_score (r : Z) (rs : list Z) : Z := foldl Z.max r rs.

(** [UncontestedBiddingState(reference_contracts, deal_filter, actions,
    rng_seed)]: [deal_] is default-constructed, [dealt_] is false. *)
Definition State_new (reference_contracts : list Contract)
    (deal_filter : Deal → bool) (actions : list Action) (rng_seed : Z)
  : UncontestedBiddingState :=
  {| reference_contracts_ := reference_contracts;
     actions_ := actions;
     deal_filter_ := Some deal_filter;
     rng_ := mt19937.seed rng_seed;
     deal_ := Deal_default;
     dealt_ := false;
     score_ := None;
     reference_scores_ := [];
     score_deal_runs := 0 |}.

(** Modelled from the spec ([LegalActions] is defined in the absent
    implementation file): "NotDealt: the only legal action is the single
    chance outcome"; "LegalActions() for a player to move: {Pass} ∪ {every bid
    strictly greater than the current highest bid in the (level,
    denomination) order}"; nothing leaves Terminal. *)
Definition kDealOutcome : Action := 0.

(** [a] is above the current highest bid, if there is one. *)
Definition exceeds (highest : option Action) (a : Action) : Prop :=
  match highest with
  | Some h => bid_lt h a
  | None => True
  end.

#[export] Instance exceeds_dec highest a : Decision (exceeds highest a).
Proof. destruct highest; simpl; apply _. Defined.

Definition LegalActions (st : UncontestedBiddingState) : list Action :=
  if dealt_ st then
    if IsTerminal st then []
    else
      filter (exceeds (highest_bid (actions_ st))) (seqZ 0 kNumBids)
      ++ [kPass]
  else [kDealOutcome].

(** Modelled from the spec (deal generation is in the absent implementation
    file): "Produces a uniformly random permutation of the 52 cards by partial
    shuffle [...], then evaluates a caller-supplied boolean predicate over the
    resulting Deal [...] If the predicate rejects, reshuffle and retest -
    unbounded rejection sampling".  [fuel] bounds the number of rounds of the
    model; the result carries the number of rejected deals. *)
Fixpoint GenerateDeal (fuel : nat) (deal_filter : Deal → bool)
    (rng : mt19937.state) (dl : Deal) (rejected : nat)
  : option (Deal * mt19937.state * nat) :=
  match fuel with
  | O => None
  | S fuel' =>
      match Shuffle rng 0 kNumCards dl with
      | Some (dl', rng') =>
          if deal_filter dl' then Some (dl', rng', rejected)
          else GenerateDeal fuel' deal_filter rng' dl' (S rejected)
      | None => None
      end
  end.

Definition push_action (st : UncontestedBiddingState) (a : Action)
  : UncontestedBiddingState :=
  {| reference_contracts_ := reference_contracts_ st;
     actions_ := actions_ st ++ [a];
     deal_filter_ := deal_filter_ st;
     rng_ := rng_ st;
     deal_ := deal_ st;
     dealt_ := dealt_ st;
     score_ := score_ st;
     reference_scores_ := reference_scores_ st;
     score_deal_runs := score_deal_runs st |}.

Definition set_dealt (st : UncontestedBiddingState) (dl : Deal)
    (rng : mt19937.state) : UncontestedBiddingState :=
  {| reference_contracts_ := reference_contracts_ st;
     actions_ := actions_ st;
     deal_filter_ := deal_filter_ st;
     rng_ := rng;
     deal_ := dl;
     dealt_ := true;
     score_ := score_ st;
     reference_scores_ := reference_scores_ st;
     score_deal_runs := score_deal_runs st |}.

Section Scoring.

(** The external collaborators of the spec: "Tricks(contract, deal) ->
    integer in [0,13]" (double-dummy trick count) and "Score(contract,
    tricks_taken) -> integer signed score". *)
Variable Tricks : Contract → Deal → Z.
Variable Score : Contract → Z → Z.

Definition contract_score (dl : Deal) (c : Contract) : Z :=
  Score c (Tricks c dl).

(** Modelled from the spec ([ScoreDeal] is defined in the absent
    implementation file): "Derive the achieved contract from the auction
    record; if no contract, score is a fixed passed out value. Otherwise
    delegate to the external trick-counting collaborator [...] then to the
    external point-scoring collaborator [...] - this is score_ [...] repeat
    trick-counting + point-scoring for every reference contract against the
    same dealt layout". *)
Definition achieved_score (st : UncontestedBiddingState) : Z :=
  match AchievedContract (actions_ st) with
  | Some c => contract_score (deal_ st) c
  | None => kPassedOutScore
  end.

Definition ScoreDeal (st : UncontestedBiddingState)
  : UncontestedBiddingState :=
  {| reference_contracts_ := reference_contracts_ st;
     actions_ := actions_ st;
     deal_filter_ := deal_filter_ st;
     rng_ := rng_ st;
     deal_ := deal_ st;
     dealt_ := dealt_ st;
     score_ := Some (achieved_score st);
     reference_scores_ :=
       contract_score (deal_ st) <$> reference_contracts_ st;
     score_deal_runs := S (score_deal_runs st) |}.

(** The cached members hold the results of [ScoreDeal]. *)
Definition scored (st : UncontestedBiddingState) : Prop :=
  score_ st = Some (achieved_score st) ∧
  reference_scores_ st
  = contract_score (deal_ st) <$> reference_contracts_ st.

Definition score_if_terminal (st : UncontestedBiddingState)
  : UncontestedBiddingState :=
  if IsTerminal st then ScoreDeal st else st.

(** [UncontestedBiddingState(reference_contracts, deal, actions, rng_seed)]:
    [dealt_] is true, and the body is [if (IsTerminal()) ScoreDeal();]. *)
Definition State_predealt (reference_contracts : list Contract)
    (deal : Deal) (actions : list Action) (rng_seed : Z)
  : UncontestedBiddingState :=
  score_if_terminal
    {| reference_contracts_ := reference_contracts;
       actions_ := actions;
       deal_filter_ := None;
       rng_ := mt19937.seed rng_seed;
       deal_ := deal;
       dealt_ := true;
       score_ := None;
       reference_scores_ := [];
       score_deal_runs := 0 |}.

(** Modelled from the spec ([Returns] is defined in the absent
    implementation file): "score_, always player 0's return value. If the
    reference-contract list is non-empty [...] take the maximum resulting
    score, and set player 1's return value to score_ - max(reference_scores)
    [...] If the reference list is empty, player 1's return value equals
    player 0's"; "Querying Returns() before the terminal condition [...]
    fails with a NotTerminal error".  It reads the cached members only. *)
Definition Returns (st : UncontestedBiddingState) : option (list Z) :=
  if IsTerminal st then
    s ← score_ st;
    match reference_contracts_ st, reference_scores_ st with
    | [], _ => Some [s; s]
    | _ :: _, r :: rs => Some [s; s - max_score r rs]
    | _ :: _, [] => None
    end
  else None.

(** Modelled from the spec ([DoApplyAction] is defined in the absent
    implementation file): the chance move "invokes deal generation and
    transitions to Bidding (or directly to Terminal [...])"; "Taking an
    action appends it to the auction record"; "On transition to Terminal,
    scoring runs exactly once and caches results". *)
Definition DoApplyAction (fuel : nat) (st : UncontestedBiddingState)
    (a : Action) : option UncontestedBiddingState :=
  if dealt_ st then Some (score_if_terminal (push_action st a))
  else
    deal_filter ← deal_filter_ st;
    res ← GenerateDeal fuel deal_filter (rng_ st) (deal_ st) 0;
    Some (score_if_terminal (set_dealt st res.1.1 res.1.2)).

(** Modelled from the spec: "Applying an action not present in
    LegalActions() fails with an IllegalAction error; this must be checked
    unconditionally". *)
Definition ApplyAction (fuel : nat) (st : UncontestedBiddingState)
    (a : Action) : option UncontestedBiddingState :=
  if decide (a ∈ LegalActions st) then DoApplyAction fuel st a else None.

(** The states a program can hold: built by a constructor, then advanced by
    [ApplyAction]. *)
Inductive reachable : UncontestedBiddingState → Prop :=
| reachable_new refs deal_filter actions rng_seed :
    reachable (State_new refs deal_filter actions rng_seed)
| reachable_predealt refs deal actions rng_seed :
    reachable (State_predealt refs deal actions rng_seed)
| reachable_apply fuel st a st' :
    reachable st → ApplyAction fuel st a = Some st' → reachable st'.

End Scoring.

(** Modelled from the spec: an instance of the point-scoring collaborator,
    "implementing standard duplicate-bridge scoring tables", for undoubled
    contracts, not vulnerable: the case the header's bounds name ("13
    undertricks, at 50 each", "7NT making").  Denominations are numbered
    clubs, diamonds, hearts, spades, no-trump. *)
Definition kNoTrump : Z := 4.

Definition trick_value (denomination : Z) : Z :=
  if decide (denomination < 2) then 20 else 30.

Definition duplicate_score (c : Contract) (tricks : Z) : Z :=
  let target := level c + 6 in
  if decide (target ≤ tricks) then
    let contract_points :=
      level c * trick_value (trumps c)
      + (if decide (trumps c = kNoTrump) then 10 else 0) in
    contract_points
    + (tricks - target) * trick_value (trumps c)
    + (if decide (100 ≤ contract_points) then 300 else 50)
    + (if decide (level c = 6) then 500 else 0)
    + (if decide (level c = 7) then 1000 else 0)
  else - 50 * (target - tricks).

(** A trick-counting collaborator that finds seven tricks in any contract. *)
Definition seven_tricks (c : Contract) (dl : Deal) : Z := 7.

(** ** class UncontestedBiddingGame *)
Module Game.

Record t := {
  reference_contracts_ : list Contract;
  forced_actions_ : list Action;
  deal_filter_ : Deal → bool;
  rng_seed_ : Z }.

Definition NumDistinctActions (g : t) : Z := kNumActions.

(** [NewInitialState]: the new state, and the game with its (mutable)
    [rng_seed_] incremented.  [++rng_seed_] is an [int] increment: past
    [INT_MAX] it is undefined in C++ and wraps here; the properties below
    stay below that point. *)
Definition NewInitialState (g : t) : UncontestedBiddingState * t :=
  let seed := wrap_int (rng_seed_ g + 1) in
  (State_new (reference_contracts_ g) (deal_filter_ g) (forced_actions_ g)
             seed,
   {| reference_contracts_ := reference_contracts_ g;
      forced_actions_ := forced_actions_ g;
      deal_filter_ := deal_filter_ g;
      rng_seed_ := seed |}).

Definition NumPlayers (g : t) : Z := kNumPlayers.

Definition MinUtility (g : t) : Z :=
  match reference_contracts_ g with
  | [] => kMinScore
  | _ :: _ => kMinScore - kMaxScore
  end.

Definition MaxUtility (g : t) : Z :=
  match reference_contracts_ g with
  | [] => kMaxScore
  | _ :: _ => 0
  end.

(** [Clone]: a new game object, copy-constructed from this one. *)
Definition Clone (g : t) : t := g.

Definition InformationStateNormalizedVectorShape (g : t) : list Z :=
  [kStateSize].

Definition MaxGameLength (g : t) : Z := kNumActions.

(** [n] successive calls of [NewInitialState] on one game object. *)
Fixpoint NewInitialStates (n : nat) (g : t)
  : list UncontestedBiddingState * t :=
  match n with
  | O => ([], g)
  | S n' =>
      let (st, g1) := NewInitialState g in
      let (sts, g2) := NewInitialStates n' g1 in
      (st :: sts, g2)
  end.

(** A process holding several game objects: [OpNewInitialState k] calls
    [NewInitialState] on the [k]-th object, [OpClone k] adds a clone of it.
    [run] returns the states created, in order. *)
Inductive op := OpNewInitialState (k : nat) | OpClone (k : nat).

Fixpoint run (ops : list op) (games : list t)
  : list UncontestedBiddingState :=
  match ops with
  | [] => []
  | OpNewInitialState k :: rest =>
      match games !! k with
      | Some g =>
          let (st, g') := NewInitialState g in
          st :: run rest (<[k := g']> games)
      | None => run rest games
      end
  | OpClone k :: rest =>
      match games !! k with
      | Some g => run rest (games ++ [Clone g])
      | None => run rest games
      end
  end.

(** No two of the states share a random stream. *)
Definition distinct_streams (sts : list UncontestedBiddingState) : Prop :=
  NoDup (rng_ <$> sts).

End Game.

(** ** Notions used to state further properties of [Deal]

    The cards at the positions [begin, end) of a deal, in order. *)
Definition cards_in (dl : Deal) (begin end_ : Z) : list Z :=
  take (Z.to_nat (end_ - begin)) (drop (Z.to_nat begin) (cards_ dl)).

(** The generator after [z] calls of [operator()] (what
    [std::mt19937::discard(z)] leaves). *)
Definition mt19937_discard (z : nat) (g : mt19937.state) : mt19937.state :=
  Nat.iter z (λ g', (mt19937.next g').2) g.

(** The cards of a deal whose [Suit] is [s], and those whose [Rank] is [r]
    (the decoding of [Suit] and [Rank]: [%] and [/] by [kNumSuits]). *)
Definition cards_of_suit (dl : Deal) (s : Z) : list Z :=
  filter (λ c, Z.rem c kNumSuits = s) (cards_ dl).

Definition cards_of_rank (dl : Deal) (r : Z) : list Z :=
  filter (λ c, Z.quot c kNumSuits = r) (cards_ dl).

(** * Properties *)

(** ** The generator and the deal *)

Lemma mt19937_next_range g : 0 ≤ (mt19937.next g).1 < 2 ^ 32.
Proof.
  unfold mt19937.next; cbn [fst]. apply Z.mod_pos_bound. reflexivity.
Qed.

Lemma array_get_in_range (cards : list Z) i :
  length cards = Z.to_nat kNumCards → 0 ≤ i < kNumCards →
  ∃ c, array_get cards i = Some c ∧ cards !! Z.to_nat i = Some c.
Proof.
  intros Hlen Hi. unfold array_get. rewrite decide_True by done.
  destruct (lookup_lt_is_Some_2 cards (Z.to_nat i)) as [c Hc]; [lia|].
  eauto.
Qed.

Lemma array_swap_in_range (cards : list Z) i j :
  length cards = Z.to_nat kNumCards →
  0 ≤ i < kNumCards → 0 ≤ j < kNumCards →
  ∃ cards', array_swap cards i j = Some cards' ∧
            cards' ≡ₚ cards ∧
            ∀ k : nat, k ≠ Z.to_nat i → k ≠ Z.to_nat j →
                       cards' !! k = cards !! k.
Proof.
  intros Hlen Hi Hj.
  destruct (array_get_in_range cards i Hlen Hi) as (ci & Hgi & Hli).
  destruct (array_get_in_range cards j Hlen Hj) as (cj & Hgj & Hlj).
  unfold array_swap. rewrite Hgi, Hgj. simpl. eexists. split; [done|]. split.
  - by apply Permutation_insert_swap.
  - intros k Hki Hkj. by rewrite !list_lookup_insert_ne.
Qed.

#[local] Opaque mt19937.next array_swap.

Lemma Shuffle_loop_in_range rng end_ i (cards : list Z) :
  length cards = Z.to_nat kNumCards → 0 ≤ i → i ≤ end_ → end_ ≤ kNumCards →
  ∃ cards' rng', Shuffle_loop rng end_ i cards = Some (cards', rng') ∧
                 cards' ≡ₚ cards ∧
                 ∀ k : nat, Z.of_nat k < i ∨ end_ ≤ Z.of_nat k →
                            cards' !! k = cards !! k.
Proof.
  funelim (Shuffle_loop rng end_ i cards); intros Hlen Hi Hie Hend.
  - unfold INT_MIN in *. lia.
  - pose proof (mt19937_next_range rng) as Hdraw.
    set (j := i + (mt19937.next rng).1 `mod` (end_ - i)).
    assert (i ≤ j < end_) as Hj.
    { pose proof (Z.mod_pos_bound (mt19937.next rng).1 (end_ - i)). lia. }
    destruct (array_swap_in_range cards i j Hlen) as (c1 & -> & Hperm & Hfr);
      [lia..|].
    destruct (H c1) as (c2 & rng2 & -> & Hperm2 & Hfr2); [|lia|lia|done|].
    { by rewrite (Permutation_length Hperm). }
    exists c2, rng2. split; [done|]. split; [by etrans|].
    intros k Hk. rewrite Hfr2 by lia. apply Hfr; lia.
  - eauto.
Qed.

#[local] Transparent mt19937.next array_swap.

Lemma Shuffle_in_range rng begin end_ dl :
  length (cards_ dl) = Z.to_nat kNumCards →
  0 ≤ begin → begin ≤ end_ → end_ ≤ kNumCards →
  ∃ dl' rng', Shuffle rng begin end_ dl = Some (dl', rng') ∧
              cards_ dl' ≡ₚ cards_ dl ∧
              ∀ k : nat, Z.of_nat k < begin ∨ end_ ≤ Z.of_nat k →
                         cards_ dl' !! k = cards_ dl !! k.
Proof.
  intros Hlen Hb Hbe He. unfold Shuffle.
  destruct (Shuffle_loop_in_range rng end_ begin (cards_ dl) Hlen Hb Hbe He)
    as (c & g & -> & Hperm & Hfr).
  simpl. eauto.
Qed.

Lemma Card_lookup dl i c :
  Card dl i = Some c ↔ 0 ≤ i < kNumCards ∧ cards_ dl !! Z.to_nat i = Some c.
Proof.
  unfold Card, array_get. case_decide; [tauto|]. split; [done|tauto].
Qed.

Lemma permutation_is_bijection dl :
  cards_ dl ≡ₚ seqZ 0 kNumCards → is_bijection dl.
Proof.
  intros Hperm.
  assert (length (cards_ dl) = Z.to_nat kNumCards) as Hlen.
  { by rewrite (Permutation_length Hperm), length_seqZ. }
  assert (NoDup (cards_ dl)) as Hnd.
  { rewrite Hperm. apply NoDup_seqZ. }
  split; [done|]. split.
  - intros i Hi.
    destruct (array_get_in_range (cards_ dl) i Hlen Hi) as (c & Hc & Hl).
    exists c. split; [done|].
    assert (c ∈ seqZ 0 kNumCards) as Hin.
    { rewrite <- Hperm. by eapply list_elem_of_lookup_2. }
    apply elem_of_seqZ in Hin. lia.
  - intros c Hc.
    assert (c ∈ cards_ dl) as Hin.
    { rewrite Hperm. apply elem_of_seqZ. lia. }
    apply list_elem_of_lookup_1 in Hin as [k Hk].
    pose proof (lookup_lt_Some _ _ _ Hk) as Hlt.
    exists (Z.of_nat k). split.
    + apply Card_lookup. rewrite Nat2Z.id. split; [lia|done].
    + intros i' [Hi' Hl']%Card_lookup.
      pose proof (NoDup_lookup _ _ _ _ Hnd Hk Hl'). lia.
Qed.

Lemma is_bijection_permutation dl :
  is_bijection dl → cards_ dl ≡ₚ seqZ 0 kNumCards.
Proof.
  intros (Hlen & Hrange & Huniq).
  symmetry. apply submseteq_length_Permutation.
  - apply NoDup_submseteq; [apply NoDup_seqZ|].
    intros c [Hc0 Hc]%elem_of_seqZ.
    destruct (Huniq c) as (i & [_ Hi]%Card_lookup & _); [lia|].
    by eapply list_elem_of_lookup_2.
  - by rewrite length_seqZ, Hlen.
Qed.

Lemma Shuffles_in_range ranges : ∀ rng dl,
  is_bijection dl →
  Forall (λ r : Z * Z, 0 ≤ r.1 ∧ r.1 ≤ r.2 ∧ r.2 ≤ kNumCards) ranges →
  ∃ dl' rng', Shuffles rng ranges dl = Some (dl', rng') ∧ is_bijection dl'.
Proof.
  induction ranges as [|[b e] rest IH]; intros rng dl Hbij Hall; simpl.
  - eauto.
  - apply Forall_cons in Hall as [(Hb & Hbe & He) Hrest]. simpl in *.
    destruct (Shuffle_in_range rng b e dl) as (d1 & g1 & -> & Hperm & _);
      [apply Hbij|done..|].
    apply IH; [|done].
    apply permutation_is_bijection. rewrite Hperm.
    by apply is_bijection_permutation.
Qed.

(** C4.  The permutation invariant of [Deal]: a deal that is
    default-constructed, or constructed from an array that is a permutation of
    0..51, and then put through any sequence of [Shuffle] calls with
    [0 <= begin <= end <= 52], holds a bijection on [0,52) in [cards_]: each
    card value appears at exactly one position. *)
Theorem Deal_permutation_invariant (dl : Deal) (rng : mt19937.state)
    (ranges : list (Z * Z)) :
  (dl = Deal_default ∨
   ∃ cards, cards ≡ₚ seqZ 0 kNumCards ∧ dl = Deal_of_array cards) →
  Forall (λ r : Z * Z, 0 ≤ r.1 ∧ r.1 ≤ r.2 ∧ r.2 ≤ 52) ranges →
  ∃ dl' rng', Shuffles rng ranges dl = Some (dl', rng') ∧ is_bijection dl'.
Proof.
  intros Horigin Hranges. apply Shuffles_in_range; [|done].
  apply permutation_is_bijection.
  destruct Horigin as [->|(cards & Hperm & ->)]; done.
Qed.

Lemma Deal_permutation_invariant_witness :
  ∃ dl' rng',
    Shuffles (mt19937.seed 42) [(0, 52); (26, 52); (13, 13)] Deal_default
    = Some (dl', rng') ∧ is_bijection dl'.
Proof.
  apply Deal_permutation_invariant.
  - by left.
  - repeat constructor; simpl; lia.
Defined.

(** C5.  The frame of [Shuffle]: for a deal (of 52 entries), any generator
    state and any range with [0 <= begin <= end <= 52], the call returns, and
    every position [i] with [i < begin] or [i >= end] holds the same card
    before and after it. *)
Theorem Shuffle_frame (dl : Deal) (rng : mt19937.state) (begin end_ : Z) :
  length (cards_ dl) = 52%nat →
  0 ≤ begin → begin ≤ end_ → end_ ≤ 52 →
  ∃ dl' rng', Shuffle rng begin end_ dl = Some (dl', rng') ∧
              ∀ i, i < begin ∨ end_ ≤ i → Card dl' i = Card dl i.
Proof.
  intros Hlen Hb Hbe He.
  destruct (Shuffle_in_range rng begin end_ dl) as (d1 & g1 & Hs & _ & Hfr);
    [done..|].
  exists d1, g1. split; [done|]. intros i Hi.
  unfold Card, array_get. case_decide; [|done]. apply Hfr. lia.
Qed.

Lemma Shuffle_frame_witness :
  ∃ dl' rng',
    Shuffle (mt19937.seed 42) 26 52 Deal_default = Some (dl', rng') ∧
    ∀ i, i < 26 ∨ 52 ≤ i → Card dl' i = Card Deal_default i.
Proof.
  apply Shuffle_frame; [reflexivity|lia..].
Defined.

(** ** Bids *)

Lemma bid_decompose a :
  is_bid a →
  1 ≤ BidLevel a ≤ kMaxBid ∧ 0 ≤ BidDenomination a < kNumDenominations ∧
  MakeBid (BidLevel a) (BidDenomination a) = a.
Proof.
  unfold is_bid, BidLevel, BidDenomination, MakeBid, kNumBids, kMaxBid,
    kNumDenominations, kNumSuits.
  intros Ha. change (1 + 4) with 5 in *.
  pose proof (Z.div_mod a 5). pose proof (Z.mod_pos_bound a 5). lia.
Qed.

Lemma bid_compose l d :
  1 ≤ l ≤ kMaxBid → 0 ≤ d < kNumDenominations →
  is_bid (MakeBid l d) ∧ BidLevel (MakeBid l d) = l ∧
  BidDenomination (MakeBid l d) = d.
Proof.
  unfold is_bid, BidLevel, BidDenomination, MakeBid, kNumBids, kMaxBid,
    kNumDenominations, kNumSuits.
  change (1 + 4) with 5. intros Hl Hd.
  assert (((l - 1) * 5 + d) `div` 5 = l - 1) as Hq.
  { symmetry. apply (Z.div_unique _ 5 (l - 1) d); lia. }
  assert (((l - 1) * 5 + d) `mod` 5 = d) as Hr.
  { symmetry. apply (Z.mod_unique _ 5 (l - 1) d); lia. }
  lia.
Qed.

(** The order by (level, denomination) is the order of the action ids. *)
Lemma bid_lt_iff a b : bid_lt a b ↔ a < b.
Proof.
  unfold bid_lt, BidLevel, BidDenomination, kNumDenominations, kNumSuits.
  change (1 + 4) with 5.
  pose proof (Z.div_mod a 5). pose proof (Z.mod_pos_bound a 5).
  pose proof (Z.div_mod b 5). pose proof (Z.mod_pos_bound b 5).
  lia.
Qed.

Lemma max_score_spec r rs :
  max_score r rs ∈ r :: rs ∧ ∀ z, z ∈ r :: rs → z ≤ max_score r rs.
Proof.
  unfold max_score. revert r. induction rs as [|z' rs IH]; intros r; simpl.
  - split; [left|]. intros z Hz. apply list_elem_of_singleton in Hz. lia.
  - destruct (IH (r `max` z')) as [Hin Hle]. split.
    + apply elem_of_cons in Hin as [->|Hin]; [|by do 2 right].
      destruct (Z.max_spec r z') as [[_ ->]|[_ ->]]; [right|]; left.
    + intros z Hz.
      pose proof (Hle (r `max` z') ltac:(left)) as Hm.
      apply elem_of_cons in Hz as [->|Hz]; [lia|].
      apply elem_of_cons in Hz as [->|Hz]; [lia|].
      apply Hle. by right.
Qed.

Lemma highest_bid_spec acts h :
  highest_bid acts = Some h ↔
  (h ∈ acts ∧ is_bid h) ∧ ∀ b, b ∈ acts → is_bid b → b ≤ h.
Proof.
  unfold highest_bid, bids_of.
  assert (∀ b, b ∈ filter is_bid acts ↔ b ∈ acts ∧ is_bid b) as Hf.
  { intros b. rewrite list_elem_of_filter. tauto. }
  destruct (filter is_bid acts) as [|b bs] eqn:E.
  - split; [done|]. intros [[Hh1 Hh2] _].
    assert (h ∈ []) as Hin by (apply Hf; done). by apply not_elem_of_nil in Hin.
  - destruct (max_score_spec b bs) as [Hin Hle]. unfold max_score in *. split.
    + intros [= <-]. split; [apply Hf in Hin; tauto|].
      intros b' ??. apply Hle, Hf. done.
    + intros [Hh Hmax]. f_equal. apply Z.le_antisymm.
      * apply Hf in Hin as [??]. by apply Hmax.
      * apply Hle, Hf. done.
Qed.

Lemma highest_bid_none acts :
  highest_bid acts = None ↔ bids_of acts = [].
Proof. unfold highest_bid. destruct (bids_of acts); naive_solver. Qed.


Lemma kPass_not_bid : ¬ is_bid kPass.
Proof. unfold is_bid, kPass. lia. Qed.


Lemma TerminalCondition_two_passes :
  TerminalCondition [kPass; kPass] = true.
Proof. reflexivity. Qed.


Lemma legal_auction_snoc acts a :
  legal_auction acts →
  (is_bid a → ∀ b, b ∈ acts → is_bid b → bid_lt b a) →
  legal_auction (acts ++ [a]).
Proof.
  intros Hlegal Ha i j b x Hi Hj Hij Hb Hx.
  pose proof (lookup_lt_Some _ _ _ Hj) as Hjlt.
  rewrite length_app in Hjlt. simpl in Hjlt.
  destruct (decide (j < length acts)%nat) as [Hin|Hlast].
  - rewrite lookup_app_l in Hi, Hj by lia. by apply (Hlegal i j).
  - assert (j = length acts) as -> by lia.
    rewrite lookup_app_l in Hi by lia.
    rewrite list_lookup_middle in Hj by done. injection Hj as <-.
    apply Ha; [done| |done]. by eapply list_elem_of_lookup_2.
Qed.



Lemma AchievedContract_no_bid acts :
  bids_of acts = [] → AchievedContract acts = None.
Proof.
  intros Hnil. unfold AchievedContract.
  by apply highest_bid_none in Hnil as ->.
Qed.

(** ** The auction state machine *)

Section ScoringProperties.

Variable Tricks : Contract → Deal → Z.
Variable Score : Contract → Z → Z.

Abbreviation ScoreDeal := (ScoreDeal Tricks Score).
Abbreviation score_if_terminal := (score_if_terminal Tricks Score).
Abbreviation State_predealt := (State_predealt Tricks Score).
Abbreviation ApplyAction := (ApplyAction Tricks Score).
Abbreviation DoApplyAction := (DoApplyAction Tricks Score).
Abbreviation reachable := (reachable Tricks Score).
Abbreviation contract_score := (contract_score Tricks Score).
Abbreviation scored := (scored Tricks Score).
Abbreviation achieved_score := (achieved_score Tricks Score).

Lemma IsTerminal_ScoreDeal st : IsTerminal (ScoreDeal st) = IsTerminal st.
Proof. reflexivity. Qed.

Lemma scored_ScoreDeal st : scored (ScoreDeal st).
Proof. split; reflexivity. Qed.

Lemma Returns_ScoreDeal_scored st :
  scored st → Returns (ScoreDeal st) = Returns st.
Proof.
  intros [Hs Hr]. unfold Returns. rewrite IsTerminal_ScoreDeal.
  simpl. rewrite Hs, Hr. reflexivity.
Qed.

Lemma score_if_terminal_inv st :
  score_deal_runs st = 0%nat →
  let st' := score_if_terminal st in
  IsTerminal st' = IsTerminal st ∧
  score_deal_runs st' = (if IsTerminal st then 1 else 0)%nat ∧
  (IsTerminal st = true → scored st').
Proof.
  intros Hruns. unfold score_if_terminal.
  destruct (IsTerminal st) eqn:Hterm; simpl.
  - rewrite Hruns. split; [done|]. split; [done|]. intros _.
    apply scored_ScoreDeal.
  - by rewrite Hterm.
Qed.

Lemma LegalActions_terminal st : IsTerminal st = true → LegalActions st = [].
Proof.
  intros Hterm. unfold LegalActions.
  assert (dealt_ st = true) as ->.
  { unfold IsTerminal in Hterm. by apply andb_true_iff in Hterm as [? _]. }
  by rewrite Hterm.
Qed.

Lemma ApplyAction_terminal fuel st a :
  IsTerminal st = true → ApplyAction fuel st a = None.
Proof.
  intros Hterm. unfold ApplyAction.
  rewrite (LegalActions_terminal st Hterm).
  rewrite decide_False; [done|]. apply not_elem_of_nil.
Qed.

(** The invariant of the reachable states: [ScoreDeal] has run once if the
    state is terminal and not at all otherwise, and a terminal state holds
    its results. *)
Lemma reachable_inv st :
  reachable st →
  score_deal_runs st = (if IsTerminal st then 1 else 0)%nat ∧
  (IsTerminal st = true → scored st).
Proof.
  induction 1 as [refs flt acts seed|refs dl acts seed
                  |fuel st a st' Hreach [IHruns IHscored] Happ].
  - split; [done|]. intros Hterm. discriminate Hterm.
  - unfold State_predealt.
    match goal with |- context [score_if_terminal ?s] =>
      destruct (score_if_terminal_inv s eq_refl) as (Ht & Hr & Hs) end.
    rewrite Ht. split; [done|]. intros Hterm. by apply Hs.
  - destruct (IsTerminal st) eqn:Hterm.
    { by rewrite ApplyAction_terminal in Happ. }
    unfold ApplyAction in Happ. case_decide; [|done].
    unfold DoApplyAction in Happ.
    destruct (dealt_ st) eqn:Hdealt.
    + injection Happ as <-.
      destruct (score_if_terminal_inv (push_action st a) IHruns)
        as (Ht & Hr & Hs).
      rewrite Ht. split; [done|]. intros Hterm'. by apply Hs.
    + destruct (deal_filter_ st) as [flt|]; [|done]. simpl in Happ.
      destruct (GenerateDeal fuel flt (rng_ st) (deal_ st) 0)
        as [res|]; [|done].
      simpl in Happ. injection Happ as <-.
      destruct (score_if_terminal_inv (set_dealt st res.1.1 res.1.2) IHruns)
        as (Ht & Hr & Hs).
      rewrite Ht. split; [done|]. intros Hterm'. by apply Hs.
Qed.

(** C8.  Scoring runs once and is cached: a state constructed with a
    pre-dealt deal and a terminal auction record has run [ScoreDeal] exactly
    once; every state reached from a constructor by [ApplyAction] has run it
    once if it is terminal and never otherwise; nothing can be applied to a
    terminal state; the cached score and reference scores of a terminal
    state, and its [Returns], are what a further [ScoreDeal] would compute;
    and [ScoreDeal] twice gives the results of [ScoreDeal] once. *)
Theorem scoring_runs_once_and_is_cached :
  (∀ refs dl acts seed,
      TerminalCondition acts = true →
      score_deal_runs (State_predealt refs dl acts seed) = 1%nat) ∧
  (∀ st, reachable st →
         score_deal_runs st = (if IsTerminal st then 1 else 0)%nat) ∧
  (∀ st, reachable st → IsTerminal st = true →
         (∀ fuel a, ApplyAction fuel st a = None) ∧
         score_ (ScoreDeal st) = score_ st ∧
         reference_scores_ (ScoreDeal st) = reference_scores_ st ∧
         Returns (ScoreDeal st) = Returns st) ∧
  (∀ st, score_ (ScoreDeal (ScoreDeal st)) = score_ (ScoreDeal st) ∧
         reference_scores_ (ScoreDeal (ScoreDeal st))
         = reference_scores_ (ScoreDeal st) ∧
         Returns (ScoreDeal (ScoreDeal st)) = Returns (ScoreDeal st)).
Proof.
  split; [|split; [|split]].
  - intros refs dl acts seed Hterm. unfold State_predealt.
    match goal with |- context [score_if_terminal ?s] =>
      destruct (score_if_terminal_inv s eq_refl) as (_ & -> & _) end.
    unfold IsTerminal; simpl. by rewrite Hterm.
  - intros st Hreach. by apply reachable_inv.
  - intros st Hreach Hterm.
    destruct (reachable_inv st Hreach) as [_ Hs].
    specialize (Hs Hterm). split; [|split; [|split]].
    + intros fuel a. by apply ApplyAction_terminal.
    + by destruct Hs as [-> _].
    + by destruct Hs as [_ ->].
    + by apply Returns_ScoreDeal_scored.
  - intros st. split; [done|]. split; [done|].
    apply Returns_ScoreDeal_scored, scored_ScoreDeal.
Qed.




End ScoringProperties.

Lemma scoring_runs_once_and_is_cached_witness :
  let st := State_predealt seven_tricks duplicate_score
              [] Deal_default [MakeBid 1 kNoTrump; kPass; kPass] 42 in
  score_deal_runs st = 1%nat ∧
  score_deal_runs st = (if IsTerminal st then 1 else 0)%nat.
Proof.
  split.
  - apply (proj1 (scoring_runs_once_and_is_cached
                    seven_tricks duplicate_score)).
    reflexivity.
  - apply (proj1 (proj2 (scoring_runs_once_and_is_cached
                           seven_tricks duplicate_score))).
    apply reachable_predealt.
Defined.



(** The reference list has to hold the contract reached: a state built
    directly with the single reference contract 1C and the auction
    [1NT, Pass, Pass], on a layout where every contract takes seven tricks,
    returns 90 (1NT made) for player 0 and 90 - 70 = 20 for player 1. *)
Example reference_list_without_the_contract :
  let st := State_predealt seven_tricks duplicate_score
              [{| level := 1; trumps := 0; declarer := 0 |}]
              Deal_default [MakeBid 1 kNoTrump; kPass; kPass] 42 in
  ¬ reached_contract_is_reference st ∧ Returns st = Some [90; 20].
Proof.
  intros st. split; [|reflexivity].
  intros (c & Hc & Hin). vm_compute in Hc. injection Hc as <-.
  apply list_elem_of_singleton in Hin. discriminate Hin.
Qed.

(** ** Legal actions *)

Lemma LegalActions_bidding st a :
  dealt_ st = true → IsTerminal st = false →
  a ∈ LegalActions st ↔
  a = kPass ∨ (is_bid a ∧ exceeds (highest_bid (actions_ st)) a).
Proof.
  intros Hdealt Hterm. unfold LegalActions. rewrite Hdealt, Hterm.
  rewrite elem_of_app, list_elem_of_filter, elem_of_seqZ,
    list_elem_of_singleton.
  unfold is_bid. intuition lia.
Qed.

Lemma exceeds_all acts a :
  exceeds (highest_bid acts) a ↔ ∀ b, b ∈ acts → is_bid b → bid_lt b a.
Proof.
  unfold exceeds. destruct (highest_bid acts) as [h|] eqn:E.
  - apply highest_bid_spec in E as [[Hin Hbid] Hmax]. split.
    + intros Hlt b Hb Hbb. apply bid_lt_iff. apply bid_lt_iff in Hlt.
      specialize (Hmax b Hb Hbb). lia.
    + intros Hall. by apply Hall.
  - apply highest_bid_none in E. split; [|done].
    intros _ b Hb Hbb.
    assert (b ∈ bids_of acts) as Hin by (by apply list_elem_of_filter).
    rewrite E in Hin. by apply not_elem_of_nil in Hin.
Qed.

(** Legal play keeps the record an auction: each bid applied is above every
    bid made before. *)
Lemma ApplyAction_legal_auction Tricks Score fuel st a st' :
  dealt_ st = true → legal_auction (actions_ st) →
  ApplyAction Tricks Score fuel st a = Some st' →
  legal_auction (actions_ st').
Proof.
  intros Hdealt Hlegal Happ.
  destruct (IsTerminal st) eqn:Hterm.
  { by rewrite ApplyAction_terminal in Happ. }
  unfold ApplyAction in Happ. case_decide as Hin; [|done].
  unfold DoApplyAction in Happ. rewrite Hdealt in Happ.
  injection Happ as <-.
  assert (actions_ (score_if_terminal Tricks Score (push_action st a))
          = actions_ st ++ [a]) as ->.
  { unfold score_if_terminal. by destruct (IsTerminal (push_action st a)). }
  apply legal_auction_snoc; [done|].
  intros Hbid. apply LegalActions_bidding in Hin; [|done..].
  destruct Hin as [->|[_ Hex]]; [by destruct kPass_not_bid|].
  by apply exceeds_all.
Qed.

(** Play stays within [MaxGameLength()]: an action can be applied only before
    the action count reaches [kNumActions]. *)
Lemma ApplyAction_within_MaxGameLength Tricks Score fuel st a st' g :
  dealt_ st = true →
  ApplyAction Tricks Score fuel st a = Some st' →
  Z.of_nat (length (actions_ st')) ≤ Game.MaxGameLength g.
Proof.
  intros Hdealt Happ.
  destruct (IsTerminal st) eqn:Hterm.
  { by rewrite ApplyAction_terminal in Happ. }
  unfold ApplyAction in Happ. case_decide as Hin; [|done].
  unfold DoApplyAction in Happ. rewrite Hdealt in Happ.
  injection Happ as <-.
  assert (actions_ (score_if_terminal Tricks Score (push_action st a))
          = actions_ st ++ [a]) as ->.
  { unfold score_if_terminal. by destruct (IsTerminal (push_action st a)). }
  unfold IsTerminal in Hterm. rewrite Hdealt in Hterm. simpl in Hterm.
  unfold TerminalCondition in Hterm.
  apply orb_false_iff in Hterm as [_ Hmax].
  apply bool_decide_eq_false in Hmax.
  rewrite length_app. simpl. unfold Game.MaxGameLength. lia.
Qed.

(** C9.  Bids and Pass: [kNumBids = 7 * 5 = 35]; the bids are the action ids
    of [0, kNumBids), each of which decomposes, in one way only, into a level
    of 1..7 and one of 5 denominations; the order by (level, denomination) is
    a strict total order (it is the order of the ids); in a dealt state a
    legal action is Pass or a bid above every bid made before, and before the
    auction ends each such bid, and Pass, is legal; Pass is the one further
    id, [kNumBids = 35]; and [NumDistinctActions() = kNumActions =
    kNumBids + 1 = 36]. *)
Theorem bids_and_pass :
  (kNumBids = 7 * 5 ∧ kNumBids = 35 ∧ kPass = kNumBids ∧ ¬ is_bid kPass ∧
   kNumActions = kNumBids + 1 ∧ kNumActions = 36 ∧
   ∀ g, Game.NumDistinctActions g = kNumActions) ∧
  (∀ a, is_bid a ↔ 0 ≤ a < kNumBids) ∧
  (∀ a, is_bid a →
        1 ≤ BidLevel a ≤ 7 ∧ 0 ≤ BidDenomination a < 5 ∧
        MakeBid (BidLevel a) (BidDenomination a) = a) ∧
  (∀ l d, 1 ≤ l ≤ 7 → 0 ≤ d < 5 →
          is_bid (MakeBid l d) ∧
          BidLevel (MakeBid l d) = l ∧ BidDenomination (MakeBid l d) = d) ∧
  ((∀ a, ¬ bid_lt a a) ∧
   (∀ a b c, bid_lt a b → bid_lt b c → bid_lt a c) ∧
   (∀ a b, bid_lt a b ∨ a = b ∨ bid_lt b a) ∧
   (∀ a b, bid_lt a b ↔ a < b)) ∧
  (∀ st a, dealt_ st = true → a ∈ LegalActions st →
           a = kPass ∨
           (is_bid a ∧ ∀ b, b ∈ actions_ st → is_bid b → bid_lt b a)) ∧
  (∀ st a, dealt_ st = true → IsTerminal st = false →
           a = kPass ∨
           (is_bid a ∧ ∀ b, b ∈ actions_ st → is_bid b → bid_lt b a) →
           a ∈ LegalActions st).
Proof.
  split; [|split; [|split; [|split; [|split; [|split]]]]].
  - repeat split; try reflexivity. apply kPass_not_bid.
  - done.
  - intros a Ha. apply (bid_decompose a Ha).
  - intros l d Hl Hd. by apply bid_compose.
  - split; [|split; [|split]].
    + intros a Ha. apply bid_lt_iff in Ha. lia.
    + intros a b c Hab Hbc. apply bid_lt_iff.
      apply bid_lt_iff in Hab. apply bid_lt_iff in Hbc. lia.
    + intros a b. rewrite !bid_lt_iff. lia.
    + apply bid_lt_iff.
  - intros st a Hdealt Hin.
    destruct (IsTerminal st) eqn:Hterm.
    { rewrite (LegalActions_terminal st Hterm) in Hin.
      by apply not_elem_of_nil in Hin. }
    apply LegalActions_bidding in Hin; [|done..].
    destruct Hin as [->|[Hbid Hex]]; [by left|].
    right. split; [done|]. by apply exceeds_all.
  - intros st a Hdealt Hterm Ha. apply LegalActions_bidding; [done..|].
    destruct Ha as [->|[Hbid Hall]]; [by left|].
    right. split; [done|]. by apply exceeds_all.
Qed.

Lemma bids_and_pass_witness :
  let st := State_predealt seven_tricks duplicate_score
              [] Deal_default [MakeBid 1 kNoTrump; kPass] 42 in
  MakeBid 2 0 = kPass ∨
  (is_bid (MakeBid 2 0) ∧
   ∀ b, b ∈ actions_ st → is_bid b → bid_lt b (MakeBid 2 0)).
Proof.
  intros st.
  apply (proj1 (proj2 (proj2 (proj2 (proj2 (proj2 bids_and_pass))))) st).
  - reflexivity.
  - vm_compute. left.
Defined.

(** ** Utility bounds *)

(** C3.  [MinUtility]/[MaxUtility]: with a non-empty reference-contract list
    they are [kMinScore - kMaxScore] and 0; with an empty one they are
    [kMinScore] and [kMaxScore]. *)
Theorem utility_bounds (g : Game.t) :
  (Game.reference_contracts_ g ≠ [] →
   Game.MinUtility g = kMinScore - kMaxScore ∧ Game.MaxUtility g = 0) ∧
  (Game.reference_contracts_ g = [] →
   Game.MinUtility g = kMinScore ∧ Game.MaxUtility g = kMaxScore).
Proof.
  unfold Game.MinUtility, Game.MaxUtility.
  destruct (Game.reference_contracts_ g); split; done.
Qed.

Lemma utility_bounds_witness :
  let g := {| Game.reference_contracts_ :=
                [{| level := 3; trumps := kNoTrump; declarer := 0 |}];
              Game.forced_actions_ := [];
              Game.deal_filter_ := λ _, true;
              Game.rng_seed_ := 0 |} in
  Game.MinUtility g = kMinScore - kMaxScore ∧ Game.MaxUtility g = 0.
Proof. intros g. by apply (proj1 (utility_bounds g)). Defined.

(** C10.  The concrete bounds: [kMinScore = -650], [kMaxScore = 1520] (their
    difference fits an [int]); a game with an empty reference-contract list
    has [MinUtility() = -650] and [MaxUtility() = 1520], one with a non-empty
    list has [MinUtility() = -2170] and [MaxUtility() = 0]. *)
Theorem concrete_utility_bounds (g : Game.t) :
  kMinScore = -650 ∧ kMaxScore = 1520 ∧
  wrap_int (kMinScore - kMaxScore) = kMinScore - kMaxScore ∧
  (Game.reference_contracts_ g = [] →
   Game.MinUtility g = -650 ∧ Game.MaxUtility g = 1520) ∧
  (Game.reference_contracts_ g ≠ [] →
   Game.MinUtility g = -2170 ∧ Game.MaxUtility g = 0).
Proof.
  unfold Game.MinUtility, Game.MaxUtility.
  destruct (Game.reference_contracts_ g); repeat split; done.
Qed.

Lemma concrete_utility_bounds_witness :
  let g := {| Game.reference_contracts_ := [];
              Game.forced_actions_ := [MakeBid 2 kNoTrump];
              Game.deal_filter_ := λ _, true;
              Game.rng_seed_ := 0 |} in
  Game.MinUtility g = -650 ∧ Game.MaxUtility g = 1520.
Proof.
  intros g.
  by apply (proj1 (proj2 (proj2 (proj2 (concrete_utility_bounds g))))).
Defined.

(** The scoring instance stays within the bounds of the header. *)
Lemma duplicate_score_range c tricks :
  1 ≤ level c ≤ kMaxBid → 0 ≤ trumps c < kNumDenominations →
  0 ≤ tricks ≤ 13 →
  kMinScore ≤ duplicate_score c tricks ≤ kMaxScore.
Proof.
  unfold duplicate_score, trick_value, kMaxBid, kNumDenominations, kNumSuits,
    kNoTrump, kMinScore, kMaxScore.
  intros Hl Hd Ht. repeat case_decide; nia.
Qed.

(** ** Reproducible deals *)

Lemma GenerateDeal_more_fuel fuel : ∀ fuel' flt rng dl k res,
  GenerateDeal fuel flt rng dl k = Some res → (fuel ≤ fuel')%nat →
  GenerateDeal fuel' flt rng dl k = Some res.
Proof.
  induction fuel as [|fuel IH]; intros fuel' flt rng dl k res Hgen Hle;
    [done|].
  destruct fuel' as [|fuel']; [lia|]. simpl in *.
  destruct (Shuffle rng 0 kNumCards dl) as [[dl' rng']|]; [|done].
  destruct (flt dl'); [done|]. apply (IH fuel'); [done|lia].
Qed.

Lemma GenerateDeal_fuel_irrelevant fuel1 fuel2 flt rng dl k res1 res2 :
  GenerateDeal fuel1 flt rng dl k = Some res1 →
  GenerateDeal fuel2 flt rng dl k = Some res2 →
  res1 = res2.
Proof.
  intros H1 H2. destruct (Nat.le_ge_cases fuel1 fuel2) as [Hle|Hle].
  - rewrite (GenerateDeal_more_fuel _ _ _ _ _ _ _ H1 Hle) in H2. congruence.
  - rewrite (GenerateDeal_more_fuel _ _ _ _ _ _ _ H2 Hle) in H1. congruence.
Qed.

(** C6.  Determinism in the seed: [Shuffle] on equal card arrays, with
    generators in the same state and the same range, gives the same card array
    and leaves the generators in the same state; and two states constructed
    with the same seed and deal filter generate the same deal with the same
    number of rejected rounds, and reach the same state when the deal action
    is applied, however many rounds the loop is allowed: a result obtained
    within some number of rounds is the result for every larger number, and
    with a filter that accepts every deal the first round gives it. *)
Theorem deal_generation_deterministic :
  (∀ d1 d2 g1 g2 begin end_,
      cards_ d1 = cards_ d2 → g1 = g2 →
      Shuffle g1 begin end_ d1 = Shuffle g2 begin end_ d2) ∧
  (∀ refs1 refs2 acts1 acts2 flt seed fuel1 fuel2 res1 res2,
      let st1 := State_new refs1 flt acts1 seed in
      let st2 := State_new refs2 flt acts2 seed in
      GenerateDeal fuel1 flt (rng_ st1) (deal_ st1) 0 = Some res1 →
      GenerateDeal fuel2 flt (rng_ st2) (deal_ st2) 0 = Some res2 →
      res1 = res2) ∧
  (∀ Tricks Score refs acts flt seed fuel1 fuel2 st1 st2,
      let st := State_new refs flt acts seed in
      DoApplyAction Tricks Score fuel1 st kDealOutcome = Some st1 →
      DoApplyAction Tricks Score fuel2 st kDealOutcome = Some st2 →
      st1 = st2) ∧
  (∀ fuel fuel' flt rng dl res,
      GenerateDeal fuel flt rng dl 0 = Some res → (fuel ≤ fuel')%nat →
      GenerateDeal fuel' flt rng dl 0 = Some res) ∧
  (∀ fuel flt rng dl,
      length (cards_ dl) = 52%nat → (∀ dl', flt dl' = true) →
      ∃ dl' rng',
        GenerateDeal (S fuel) flt rng dl 0 = Some (dl', rng', 0%nat)).
Proof.
  split; [|split; [|split; [|split]]].
  - intros [c1] [c2] g1 g2 b e Hc ->. simpl in Hc. by rewrite Hc.
  - intros refs1 refs2 acts1 acts2 flt seed fuel1 fuel2 res1 res2 st1 st2.
    apply GenerateDeal_fuel_irrelevant.
  - intros Tricks Score refs acts flt seed fuel1 fuel2 st1 st2 st.
    unfold DoApplyAction.
    change (dealt_ st) with false. change (deal_filter_ st) with (Some flt).
    cbn [mbind option_bind].
    destruct (GenerateDeal fuel1 flt (rng_ st) (deal_ st) 0) as [r1|] eqn:E1;
      [|done].
    destruct (GenerateDeal fuel2 flt (rng_ st) (deal_ st) 0) as [r2|] eqn:E2;
      [|done].
    rewrite (GenerateDeal_fuel_irrelevant _ _ _ _ _ _ _ _ E1 E2).
    cbn [mbind option_bind]. congruence.
  - intros fuel fuel' flt rng dl res Hgen Hle.
    by apply (GenerateDeal_more_fuel fuel).
  - intros fuel flt rng dl Hlen Hflt. cbn [GenerateDeal].
    destruct (Shuffle_in_range rng 0 kNumCards dl Hlen)
      as (dl' & rng' & -> & _); [done..|].
    rewrite Hflt. eauto.
Qed.

Lemma deal_generation_deterministic_witness :
  Shuffle (mt19937.seed 42) 0 52 Deal_default
  = Shuffle (mt19937.seed 42) 0 52 (Deal_of_array (seqZ 0 52)) ∧
  GenerateDeal 1 (λ _, true) (mt19937.seed 42) Deal_default 0
  = GenerateDeal 3 (λ _, true) (mt19937.seed 42) Deal_default 0.
Proof.
  split.
  - apply (proj1 deal_generation_deterministic); reflexivity.
  - destruct (GenerateDeal 1 (λ _, true) (mt19937.seed 42) Deal_default 0)
      as [res1|] eqn:E1; [|vm_compute in E1; discriminate].
    destruct (GenerateDeal 3 (λ _, true) (mt19937.seed 42) Deal_default 0)
      as [res2|] eqn:E2; [|vm_compute in E2; discriminate].
    f_equal.
    exact (proj1 (proj2 deal_generation_deterministic) [] [] [] []
             (λ _, true) 42 1%nat 3%nat res1 res2 E1 E2).
Defined.

(** ** Seeds *)

Lemma wrap_int_in_range z : INT_MIN ≤ z ≤ INT_MAX → wrap_int z = z.
Proof.
  unfold INT_MIN, INT_MAX, wrap_int. intros Hz.
  rewrite Z.mod_small; lia.
Qed.

Lemma mt19937_seed_head v :
  head (mt19937.x (mt19937.seed v)) = Some (mt19937.word v).
Proof. reflexivity. Qed.

Lemma mt19937_seed_inj v1 v2 :
  INT_MIN ≤ v1 ≤ INT_MAX → INT_MIN ≤ v2 ≤ INT_MAX →
  mt19937.seed v1 = mt19937.seed v2 → v1 = v2.
Proof.
  unfold INT_MIN, INT_MAX. intros H1 H2 Heq.
  assert (mt19937.word v1 = mt19937.word v2) as Hw.
  { pose proof (mt19937_seed_head v1) as Hh. rewrite Heq in Hh.
    rewrite mt19937_seed_head in Hh. congruence. }
  unfold mt19937.word, mt19937.w in Hw.
  pose proof (Z.div_mod v1 (2 ^ 32) ltac:(lia)).
  pose proof (Z.div_mod v2 (2 ^ 32) ltac:(lia)).
  lia.
Qed.

Lemma NewInitialStates_S n g :
  Game.NewInitialStates (S n) g
  = ((Game.NewInitialState g).1
       :: (Game.NewInitialStates n (Game.NewInitialState g).2).1,
     (Game.NewInitialStates n (Game.NewInitialState g).2).2).
Proof.
  cbn [Game.NewInitialStates]. destruct (Game.NewInitialState g) as [st g1].
  cbn [fst snd]. by destruct (Game.NewInitialStates n g1).
Qed.

Lemma successive_seeds n : ∀ g,
  INT_MIN ≤ Game.rng_seed_ g → Game.rng_seed_ g + Z.of_nat n ≤ INT_MAX →
  length (Game.NewInitialStates n g).1 = n ∧
  Game.rng_seed_ (Game.NewInitialStates n g).2
  = Game.rng_seed_ g + Z.of_nat n ∧
  ∀ k st, (Game.NewInitialStates n g).1 !! k = Some st →
          rng_ st = mt19937.seed (Game.rng_seed_ g + 1 + Z.of_nat k).
Proof.
  induction n as [|n IH]; intros g Hlo Hhi.
  - simpl. split; [done|]. split; [lia|]. intros k st Hk. done.
  - rewrite NewInitialStates_S. cbn [fst snd].
    assert (Game.rng_seed_ (Game.NewInitialState g).2
            = Game.rng_seed_ g + 1) as Hnext.
    { cbn. apply wrap_int_in_range. unfold INT_MIN, INT_MAX in *. lia. }
    destruct (IH (Game.NewInitialState g).2) as (Hlen & Hseed & Hk);
      [rewrite Hnext; unfold INT_MIN in *; lia | rewrite Hnext; lia|].
    rewrite Hnext in Hseed, Hk.
    split; [by rewrite length_cons, Hlen|]. split; [lia|].
    intros [|k] st Hst.
    + injection Hst as <-. cbn [Game.NewInitialState fst State_new rng_].
      rewrite wrap_int_in_range by (unfold INT_MIN, INT_MAX in *; lia).
      f_equal. lia.
    + rewrite (Hk k st Hst). f_equal. lia.
Qed.

(** C7 (amended).  Seeds: each state is seeded from the counter [rng_seed_]
    of its own game object, incremented by each [NewInitialState()] call.
    While the counter stays within [int], [n] successive calls on one game
    give the states the seeds [rng_seed_ + 1, ..., rng_seed_ + n] (strictly
    increasing, so distinct, and determined by the game alone), leave the
    counter at [rng_seed_ + n], and no two of the states have generators in
    the same state; a clone of a game hands out the same seed as the game. *)
Theorem NewInitialState_seeds (g : Game.t) (n : nat) :
  INT_MIN ≤ Game.rng_seed_ g → Game.rng_seed_ g + Z.of_nat n ≤ INT_MAX →
  length (Game.NewInitialStates n g).1 = n ∧
  Game.rng_seed_ (Game.NewInitialStates n g).2
  = Game.rng_seed_ g + Z.of_nat n ∧
  (∀ k st, (Game.NewInitialStates n g).1 !! k = Some st →
           rng_ st = mt19937.seed (Game.rng_seed_ g + 1 + Z.of_nat k)) ∧
  Game.distinct_streams (Game.NewInitialStates n g).1 ∧
  (Game.NewInitialState (Game.Clone g)).1 = (Game.NewInitialState g).1.
Proof.
  intros Hlo Hhi.
  destruct (successive_seeds n g Hlo Hhi) as (Hlen & Hseed & Hk).
  split; [done|]. split; [done|]. split; [done|]. split; [|done].
  unfold Game.distinct_streams. apply NoDup_alt.
  intros i j r Hi Hj.
  apply list_lookup_fmap_Some in Hi as (sti & -> & Hsti).
  apply list_lookup_fmap_Some in Hj as (stj & Heq & Hstj).
  pose proof (lookup_lt_Some _ _ _ Hsti) as Hilt.
  pose proof (lookup_lt_Some _ _ _ Hstj) as Hjlt.
  rewrite Hlen in Hilt, Hjlt.
  rewrite (Hk i sti Hsti), (Hk j stj Hstj) in Heq.
  apply mt19937_seed_inj in Heq; lia.
Qed.

Lemma NewInitialState_seeds_witness :
  let g := {| Game.reference_contracts_ := [];
              Game.forced_actions_ := [];
              Game.deal_filter_ := λ _, true;
              Game.rng_seed_ := 0 |} in
  length (Game.NewInitialStates 3 g).1 = 3%nat ∧
  Game.rng_seed_ (Game.NewInitialStates 3 g).2 = 0 + Z.of_nat 3 ∧
  Game.distinct_streams (Game.NewInitialStates 3 g).1.
Proof.
  intros g.
  destruct (NewInitialState_seeds g 3) as (Hlen & Hseed & _ & Hnd & _).
  - vm_compute. discriminate.
  - vm_compute. discriminate.
  - by repeat split.
Defined.

(** C7, counterexample.  A process that holds a game, clones it, and asks
    each of the two game objects for an initial state gets two states whose
    generators are in the same state: the streams are not distinct. *)
Lemma clone_shares_the_stream :
  let g := {| Game.reference_contracts_ := [];
              Game.forced_actions_ := [];
              Game.deal_filter_ := λ _, true;
              Game.rng_seed_ := 0 |} in
  let sts := Game.run [Game.OpClone 0; Game.OpNewInitialState 0;
                       Game.OpNewInitialState 1] [g] in
  length sts = 2%nat ∧ ¬ Game.distinct_streams sts.
Proof.
  intros g sts. split; [reflexivity|].
  unfold Game.distinct_streams. intros Hnd.
  change (NoDup [mt19937.seed (wrap_int 1); mt19937.seed (wrap_int 1)])
    in Hnd.
  apply NoDup_cons in Hnd as [Hnin _]. apply Hnin. left.
Qed.

(** ** Checks of the embedding on known values *)

(** The first values of [std::mt19937] with its default seed, 5489. *)
Example mt19937_default_seed :
  let d1 := mt19937.next (mt19937.seed 5489) in
  let d2 := mt19937.next d1.2 in
  (d1.1, d2.1) = (3499211612, 581869302).
Proof. vm_compute. reflexivity. Qed.

(** An auction record that is not in increasing order (only a constructor can
    hold one) ends [..., 1C, Pass, Pass] with the contract of its highest
    bid, 3NT. *)
Example contract_of_unordered_record :
  AchievedContract [MakeBid 3 kNoTrump; MakeBid 1 0; kPass; kPass]
  = Some {| level := 3; trumps := kNoTrump; declarer := 0 |}.
Proof. vm_compute. reflexivity. Qed.

(** Standard values of the scoring instance: 1NT made, 3NT made, 4S with an
    overtrick, 7NT made, 7NT with no trick. *)
Example duplicate_score_values :
  duplicate_score {| level := 1; trumps := 4; declarer := 0 |} 7 = 90 ∧
  duplicate_score {| level := 3; trumps := 4; declarer := 0 |} 9 = 400 ∧
  duplicate_score {| level := 4; trumps := 3; declarer := 0 |} 11 = 450 ∧
  duplicate_score {| level := 7; trumps := 4; declarer := 0 |} 13 = kMaxScore ∧
  duplicate_score {| level := 7; trumps := 4; declarer := 0 |} 0 = kMinScore.
Proof. vm_compute. repeat split; reflexivity. Qed.

(** * Further properties of the header's code *)

(** ** [Shuffle]: what it rearranges, what it draws, where it must stay *)

Lemma segments_of (cards : list Z) (b e : nat) :
  (b ≤ e)%nat →
  cards = take b cards ++ take (e - b) (drop b cards) ++ drop e cards.
Proof.
  intros Hbe.
  rewrite <- (take_drop b cards) at 1. f_equal.
  rewrite <- (take_drop (e - b) (drop b cards)) at 1. f_equal.
  rewrite drop_drop. f_equal. lia.
Qed.

(** X1.  [Shuffle] rearranges the range and nothing else: for a 52-entry
    array and [0 <= begin <= end <= 52] the call returns, the cards at the
    positions [begin, end) afterwards are a permutation of the cards that
    were there, the positions before [begin] and from [end] on hold the same
    lists of cards, and so the whole array is a permutation of what it was
    (whatever the array held: no card value is created or lost). *)
Theorem Shuffle_permutes_the_range (dl : Deal) (rng : mt19937.state)
    (begin end_ : Z) :
  length (cards_ dl) = 52%nat →
  0 ≤ begin → begin ≤ end_ → end_ ≤ 52 →
  ∃ dl' rng',
    Shuffle rng begin end_ dl = Some (dl', rng') ∧
    cards_in dl' begin end_ ≡ₚ cards_in dl begin end_ ∧
    cards_in dl' 0 begin = cards_in dl 0 begin ∧
    cards_in dl' end_ 52 = cards_in dl end_ 52 ∧
    cards_ dl' ≡ₚ cards_ dl.
Proof.
  intros Hlen Hb Hbe He.
  destruct (Shuffle_in_range rng begin end_ dl)
    as (dl' & rng' & Hs & Hperm & Hfr); [done..|].
  exists dl', rng'. split; [done|].
  pose proof (Permutation_length Hperm) as Hlen'.
  assert (take (Z.to_nat begin) (cards_ dl')
          = take (Z.to_nat begin) (cards_ dl)) as Hpre.
  { apply list_eq. intros k.
    destruct (decide (k < Z.to_nat begin)%nat) as [Hk|Hk].
    - rewrite !lookup_take_lt by done. apply Hfr. lia.
    - rewrite !lookup_take_ge by lia. done. }
  assert (drop (Z.to_nat end_) (cards_ dl')
          = drop (Z.to_nat end_) (cards_ dl)) as Hpost.
  { apply list_eq. intros k. rewrite !lookup_drop. apply Hfr. lia. }
  assert (cards_in dl' begin end_ ≡ₚ cards_in dl begin end_) as Hmid.
  { unfold cards_in.
    rewrite (segments_of (cards_ dl) (Z.to_nat begin) (Z.to_nat end_)) in Hperm
      by lia.
    rewrite (segments_of (cards_ dl') (Z.to_nat begin) (Z.to_nat end_))
      in Hperm by lia.
    rewrite Hpre, Hpost in Hperm.
    apply Permutation_app_inv_l, Permutation_app_inv_r in Hperm.
    by rewrite !Z2Nat.inj_sub by lia. }
  split; [done|]. split; [|split; [|done]].
  - unfold cards_in. rewrite Z.sub_0_r. change (Z.to_nat 0) with 0%nat.
    rewrite !drop_0. apply Hpre.
  - unfold cards_in. by rewrite Hpost.
Qed.

Lemma Shuffle_permutes_the_range_witness :
  ∃ dl' rng',
    Shuffle (mt19937.seed 42) 26 52 Deal_default = Some (dl', rng') ∧
    cards_in dl' 26 52 ≡ₚ cards_in Deal_default 26 52 ∧
    cards_in dl' 0 26 = cards_in Deal_default 0 26 ∧
    cards_in dl' 52 52 = cards_in Deal_default 52 52 ∧
    cards_ dl' ≡ₚ cards_ Deal_default.
Proof.
  apply Shuffle_permutes_the_range; [reflexivity|lia..].
Defined.

Lemma array_swap_positions (cards cards' : list Z) i j :
  array_swap cards i j = Some cards' → 0 ≤ i < 52 ∧ 0 ≤ j < 52.
Proof.
  unfold array_swap, array_get.
  destruct (decide (0 ≤ i < kNumCards)) as [Hi|Hi]; [|done].
  destruct (cards !! Z.to_nat i); [|done]. simpl.
  destruct (decide (0 ≤ j < kNumCards)) as [Hj|Hj]; [|done].
  intros _. unfold kNumCards, kNumSuits, kNumCardsPerSuit in *. lia.
Qed.

#[local] Opaque mt19937.next array_swap.

Lemma Shuffle_loop_draws rng end_ i (cards : list Z) :
  ∀ cards' rng',
    Shuffle_loop rng end_ i cards = Some (cards', rng') →
    rng' = mt19937_discard (Z.to_nat (end_ - 1 - i)) rng.
Proof.
  funelim (Shuffle_loop rng end_ i cards); intros cards' rng' Hs.
  - done.
  - destruct (array_swap cards i _) as [c1|]; [|done].
    rewrite (H c1 cards' rng' Hs).
    replace (Z.to_nat (end_ - 1 - i))
      with (S (Z.to_nat (end_ - 1 - (i + 1)))) by lia.
    unfold mt19937_discard. by rewrite Nat.iter_succ_r.
  - injection Hs as _ <-.
    replace (Z.to_nat (end_ - 1 - i)) with 0%nat by lia. done.
Qed.

Lemma Shuffle_loop_out_of_bounds rng end_ i (cards : list Z) :
  i < end_ - 1 → i < 0 ∨ 54 ≤ end_ →
  Shuffle_loop rng end_ i cards = None.
Proof.
  funelim (Shuffle_loop rng end_ i cards); intros Hlt Hout; [done| |lia].
  destruct (array_swap cards i _) as [c1|] eqn:Hswap; [|done].
  apply array_swap_positions in Hswap as [Hi _].
  apply H; lia.
Qed.

#[local] Transparent mt19937.next array_swap.

(** X2.  The draws of [Shuffle]: a call that returns has called the
    generator exactly [end - 1 - begin] times (not at all when that is not
    positive), whatever the cards are: the generator is left where
    [discard(end - 1 - begin)] would leave it.  The default range takes 51
    draws. *)
Theorem Shuffle_draws (dl dl' : Deal) (rng rng' : mt19937.state)
    (begin end_ : Z) :
  Shuffle rng begin end_ dl = Some (dl', rng') →
  rng' = mt19937_discard (Z.to_nat (end_ - 1 - begin)) rng ∧
  (begin = 0 → end_ = kNumCards → rng' = mt19937_discard 51 rng).
Proof.
  unfold Shuffle. intros Hs.
  destruct (Shuffle_loop rng end_ begin (cards_ dl)) as [[c g]|] eqn:E;
    [|done].
  simpl in Hs. injection Hs as _ <-.
  pose proof (Shuffle_loop_draws _ _ _ _ _ _ E) as ->.
  split; [done|]. by intros -> ->.
Qed.

Lemma Shuffle_draws_witness :
  ∃ dl', Shuffle (mt19937.seed 42) 0 52 Deal_default
         = Some (dl', mt19937_discard 51 (mt19937.seed 42)).
Proof.
  destruct (Shuffle (mt19937.seed 42) 0 52 Deal_default) as [[dl' rng']|]
    eqn:E; [|vm_compute in E; discriminate].
  exists dl'. f_equal. f_equal.
  exact (proj1 (Shuffle_draws _ _ _ _ _ _ E)).
Defined.

(** X4.  [Shuffle] checks no bound: on a range of two positions or more that
    starts below 0, or whose [end] is 54 or more, it indexes the array
    outside [0, 52) (undefined behaviour; no result in this embedding),
    whatever the generator delivers. *)
Theorem Shuffle_out_of_bounds (dl : Deal) (rng : mt19937.state)
    (begin end_ : Z) :
  begin < end_ - 1 → begin < 0 ∨ 54 ≤ end_ →
  Shuffle rng begin end_ dl = None.
Proof.
  intros Hlt Hout. unfold Shuffle.
  by rewrite Shuffle_loop_out_of_bounds.
Qed.

Lemma Shuffle_out_of_bounds_witness :
  Shuffle (mt19937.seed 42) 40 54 Deal_default = None.
Proof. apply Shuffle_out_of_bounds; lia. Defined.

(** ** [Suit] and [Rank] *)

Lemma Card_Suit_Rank dl i c :
  Card dl i = Some c →
  Suit dl i = Some (Z.rem c kNumSuits) ∧ Rank dl i = Some (Z.quot c kNumSuits).
Proof. unfold Card, Suit, Rank. by intros ->. Qed.

Lemma Suit_Rank_Card dl i s r :
  Suit dl i = Some s → Rank dl i = Some r →
  Card dl i = Some (kNumSuits * r + s).
Proof.
  unfold Card, Suit, Rank.
  destruct (array_get (cards_ dl) i) as [c|]; [|done]. simpl.
  intros [= <-] [= <-]. f_equal. apply Z.quot_rem'.
Qed.

(** X5.  [Suit] and [Rank] decode the deck: in a deal whose array is a
    bijection on [0,52) (every deal made by the constructors and [Shuffle]),
    every position holds a suit of [0,4) and a rank of [0,13), the card being
    [4 * rank + suit], and each of the 52 pairs (suit, rank) is held by
    exactly one position. *)
Theorem Suit_Rank_bijection (dl : Deal) :
  is_bijection dl →
  (∀ i, 0 ≤ i < 52 →
        ∃ s r, Suit dl i = Some s ∧ Rank dl i = Some r ∧
               0 ≤ s < 4 ∧ 0 ≤ r < 13 ∧ Card dl i = Some (4 * r + s)) ∧
  (∀ s r, 0 ≤ s < 4 → 0 ≤ r < 13 →
          ∃ i, Suit dl i = Some s ∧ Rank dl i = Some r ∧
               ∀ i', Suit dl i' = Some s → Rank dl i' = Some r → i' = i).
Proof.
  intros (Hlen & Hrange & Huniq). split.
  - intros i Hi. destruct (Hrange i Hi) as (c & Hc & Hcr).
    unfold kNumCards, kNumSuits, kNumCardsPerSuit in Hcr.
    destruct (Card_Suit_Rank dl i c Hc) as [Hs Hr].
    exists (Z.rem c kNumSuits), (Z.quot c kNumSuits).
    split; [done|]. split; [done|].
    unfold kNumSuits in *.
    pose proof (Z.quot_rem' c 4) as Hqr.
    pose proof (Z.rem_bound_pos c 4 ltac:(lia) ltac:(lia)) as Hrem.
    assert (0 ≤ Z.quot c 4 < 13) as Hq.
    { split; [apply Z.quot_pos; lia|].
      apply Z.quot_lt_upper_bound; lia. }
    split; [lia|]. split; [done|]. rewrite Hc. f_equal. lia.
  - intros s r Hs Hr.
    destruct (Huniq (4 * r + s)) as (i & Hc & Hone).
    { unfold kNumCards, kNumSuits, kNumCardsPerSuit. lia. }
    destruct (Card_Suit_Rank dl i _ Hc) as [HS HR].
    assert (Z.rem (4 * r + s) 4 = s ∧ Z.quot (4 * r + s) 4 = r) as [Hrem Hquot].
    { rewrite Z.rem_mod_nonneg, Z.quot_div_nonneg by lia.
      split.
      - symmetry. apply (Z.mod_unique _ 4 r s); lia.
      - symmetry. apply (Z.div_unique _ 4 r s); lia. }
    unfold kNumSuits in HS, HR. rewrite Hrem in HS. rewrite Hquot in HR.
    exists i. split; [done|]. split; [done|].
    intros i' HS' HR'. apply Hone.
    apply (Suit_Rank_Card dl i' s r HS' HR').
Qed.

Lemma Suit_Rank_bijection_witness :
  ∃ i, Suit Deal_default i = Some 3 ∧ Rank Deal_default i = Some 12 ∧
       ∀ i', Suit Deal_default i' = Some 3 →
             Rank Deal_default i' = Some 12 → i' = i.
Proof.
  apply (proj2 (Suit_Rank_bijection Deal_default
                  (permutation_is_bijection Deal_default
                     (reflexivity _))));
    lia.
Defined.

(** X6.  The make-up of a deal: a deal whose array is a bijection on [0,52)
    holds exactly 13 cards of each of the 4 suits and exactly 4 cards of each
    of the 13 ranks, as [Suit] and [Rank] decode them. *)
Theorem thirteen_of_each_suit (dl : Deal) :
  is_bijection dl →
  (∀ s, 0 ≤ s < kNumSuits →
        length (cards_of_suit dl s) = Z.to_nat kNumCardsPerSuit) ∧
  (∀ r, 0 ≤ r < kNumCardsPerSuit →
        length (cards_of_rank dl r) = Z.to_nat kNumSuits).
Proof.
  intros Hperm%is_bijection_permutation. split.
  - intros s Hs. unfold cards_of_suit. rewrite Hperm.
    unfold kNumSuits in Hs.
    assert (s = 0 ∨ s = 1 ∨ s = 2 ∨ s = 3) as Hcases by lia.
    destruct Hcases as [->|[->|[->| ->]]]; by vm_compute.
  - intros r Hr. unfold cards_of_rank. rewrite Hperm.
    unfold kNumCardsPerSuit in Hr.
    assert (r = 0 ∨ r = 1 ∨ r = 2 ∨ r = 3 ∨ r = 4 ∨ r = 5 ∨ r = 6 ∨
            r = 7 ∨ r = 8 ∨ r = 9 ∨ r = 10 ∨ r = 11 ∨ r = 12) as Hcases
      by lia.
    repeat (destruct Hcases as [->|Hcases]; [by vm_compute|]).
    subst r. by vm_compute.
Qed.

Lemma thirteen_of_each_suit_witness :
  ∃ dl' rng',
    Shuffle (mt19937.seed 42) 0 52 Deal_default = Some (dl', rng') ∧
    length (cards_of_suit dl' 2) = 13%nat ∧
    length (cards_of_rank dl' 12) = 4%nat.
Proof.
  destruct (Shuffle_in_range (mt19937.seed 42) 0 52 Deal_default)
    as (dl' & rng' & Hs & Hperm & _);
    [reflexivity | lia | lia
    | unfold kNumCards, kNumSuits, kNumCardsPerSuit; lia |].
  exists dl', rng'. split; [exact Hs|]. clear Hs.
  assert (is_bijection dl') as Hbij.
  { apply permutation_is_bijection. by rewrite Hperm. }
  split.
  - apply (proj1 (thirteen_of_each_suit dl' Hbij)). unfold kNumSuits. lia.
  - apply (proj2 (thirteen_of_each_suit dl' Hbij)).
    unfold kNumCardsPerSuit. lia.
Defined.

(** ** [Shuffle] moves positions, whatever they hold *)

Lemma array_get_fmap (f : Z → Z) (cards : list Z) i :
  array_get (f <$> cards) i = f <$> array_get cards i.
Proof.
  unfold array_get. case_decide; [|done]. apply list_lookup_fmap.
Qed.

Lemma array_swap_fmap (f : Z → Z) (cards : list Z) i j :
  array_swap (f <$> cards) i j
  = (λ l : list Z, f <$> l) <$> array_swap cards i j.
Proof.
  unfold array_swap. rewrite !array_get_fmap.
  destruct (array_get cards i) as [ci|]; [|done]. simpl.
  destruct (array_get cards j) as [cj|]; [|done]. simpl.
  by rewrite !list_fmap_insert.
Qed.

#[local] Opaque mt19937.next array_swap.

Lemma Shuffle_loop_fmap (f : Z → Z) rng end_ i (cards : list Z) :
  Shuffle_loop rng end_ i (f <$> cards)
  = (λ res : list Z * mt19937.state, (f <$> res.1, res.2))
      <$> Shuffle_loop rng end_ i cards.
Proof.
  funelim (Shuffle_loop rng end_ i cards).
  - simp Shuffle_loop. by rewrite Heq.
  - simp Shuffle_loop. rewrite Heq0. simpl. rewrite Heq. simpl.
    rewrite array_swap_fmap.
    destruct (array_swap cards i _) as [c1|]; [|done]. simpl. apply H.
  - simp Shuffle_loop. rewrite Heq0. simpl. by rewrite Heq.
Qed.

#[local] Transparent mt19937.next array_swap.

(** X7.  [Shuffle] is a rearrangement of positions fixed by the generator
    state and the range alone: the card values play no part.  Relabelling the
    cards (by any function) and shuffling gives the same as shuffling and
    then relabelling, with the same generator left, success or not. *)
Theorem Shuffle_relabel (f : Z → Z) (dl : Deal) (rng : mt19937.state)
    (begin end_ : Z) :
  Shuffle rng begin end_ {| cards_ := f <$> cards_ dl |}
  = (λ res : Deal * mt19937.state,
       ({| cards_ := f <$> cards_ res.1 |}, res.2))
      <$> Shuffle rng begin end_ dl.
Proof.
  unfold Shuffle. simpl. rewrite Shuffle_loop_fmap.
  by destruct (Shuffle_loop rng end_ begin (cards_ dl)) as [[c g]|].
Qed.

Lemma lookup_as_relabel (cards : list Z) :
  length cards = 52%nat →
  (λ k, cards !!! Z.to_nat k) <$> seqZ 0 kNumCards = cards.
Proof.
  intros Hlen. apply list_eq. intros k.
  rewrite list_lookup_fmap.
  destruct (decide (k < 52)%nat) as [Hk|Hk].
  - rewrite lookup_seqZ_lt by (unfold kNumCards, kNumSuits, kNumCardsPerSuit; lia).
    simpl. rewrite Z.add_0_l, Nat2Z.id.
    destruct (lookup_lt_is_Some_2 cards k) as [c Hc]; [lia|].
    rewrite Hc. f_equal. by apply list_lookup_total_correct.
  - rewrite lookup_seqZ_ge by (unfold kNumCards, kNumSuits, kNumCardsPerSuit; lia).
    simpl. symmetry. apply lookup_ge_None. lia.
Qed.

(** X8.  The shuffle of any deal is read off the shuffle of the sorted deck:
    if shuffling [Deal()] with a generator and a range leaves the array
    [sigma], then shuffling a deal [dl] with the same generator and range puts
    at each position [k] the card that [dl] held at position [sigma[k]], and
    leaves the generator in the same state. *)
Theorem Shuffle_by_positions (dl sigma : Deal) (rng rng' : mt19937.state)
    (begin end_ : Z) :
  length (cards_ dl) = 52%nat →
  Shuffle rng begin end_ Deal_default = Some (sigma, rng') →
  Shuffle rng begin end_ dl
  = Some ({| cards_ := (λ k, cards_ dl !!! Z.to_nat k) <$> cards_ sigma |},
          rng').
Proof.
  intros Hlen Hsigma.
  pose proof (Shuffle_relabel (λ k, cards_ dl !!! Z.to_nat k)
                Deal_default rng begin end_) as Hnat.
  change (cards_ Deal_default) with (seqZ 0 kNumCards) in Hnat.
  rewrite (lookup_as_relabel (cards_ dl) Hlen), Hsigma in Hnat.
  destruct dl. exact Hnat.
Qed.

Lemma Shuffle_by_positions_witness :
  ∃ sigma rng',
    Shuffle (mt19937.seed 42) 0 52 (Deal_of_array (seqZ 100 52))
    = Some ({| cards_ := (λ k, seqZ 100 52 !!! Z.to_nat k) <$> cards_ sigma |},
            rng').
Proof.
  destruct (Shuffle (mt19937.seed 42) 0 52 Deal_default) as [[sigma rng']|]
    eqn:E; [|vm_compute in E; discriminate].
  exists sigma, rng'.
  apply (Shuffle_by_positions (Deal_of_array (seqZ 100 52)) sigma _ _ _ _
           eq_refl E).
Defined.
